(** * entity-locale: the locale manager of [lib/index.js]

    A shallow embedding of the [Locale] class: the in-memory table
    [_locales], the loaders ([_processFile], [addFromFile], [addFromDir],
    [_addFromDatabase], [initialize]), the write path ([translate]) and
    the lookup path ([locales], [t], [_strtr]).

    Modelling conventions.
    - A JavaScript string is a [string]: a sequence of code units.
    - A JavaScript object used as a dictionary is a [gmap] keyed by
      strings, read the way the source reads it: through the prototype
      chain. A name that the object does not hold itself reads as the
      member of [Object.prototype] of that name, when there is one.
    - An assignment [o[k] = v] of a string always stores [v] under [k].
      When [o] is a member of [Object.prototype] that the table
      inherits, the table keeps, under the member's name, the strings
      written on it; they are read back from that member only.
    - An object that is only enumerated with [for ... in] (the parsed
      translation file, the [params] of [_strtr]) is an association list
      in enumeration order.
    - The callback protocol [done(err)] becomes a returned
      [option error]; the file system, the glob and the database
      collection are collaborators supplied by the [core] object. *)

From Equations Require Import Equations.
From stdpp Require Import gmap strings list fin_maps.
From Stdlib Require Import Ascii String.

Open Scope string_scope.
Open Scope list_scope.
Open Scope nat_scope.

(** ** JavaScript string primitives *)

Module JS.

(** [str.substr(i, n)]: at most [n] code units starting at [i]. *)
Definition substr (str : string) (i n : nat) : string :=
  String.substring i n str.

(** [str.charAt(i)]: the one-unit string at [i], or [""] out of range. *)
Definition charAt (str : string) (i : nat) : string :=
  String.substring i 1 str.

(** A string used as a condition: [""] is falsy, every other string is
    truthy. *)
Definition truthy (s : string) : bool :=
  match s with
  | EmptyString => false
  | String _ _ => true
  end.

(** [str.split(sep)] for a one-unit separator. *)
Fixpoint split (sep : ascii) (str : string) : list string :=
  match str with
  | EmptyString => [EmptyString]
  | String c rest =>
      if Ascii.eqb c sep then EmptyString :: split sep rest
      else match split sep rest with
           | seg :: segs => String c seg :: segs
           | [] => [String c EmptyString]
           end
  end.

End JS.

(** ** Token substitution: [Locale.prototype._strtr] *)

(** The [params] argument: absent ([undefined]) or an object enumerated
    in property order. *)
Definition params_t : Type := option (list (string * string)).

Definition params_entries (params : params_t) : list (string * string) :=
  match params with
  | Some kvs => kvs
  | None => []
  end.

(** The token of a parameter: [':' + arg]. *)
Definition token (kv : string * string) : string := ":" +:+ fst kv.

(** The first loop: [from.push(':' + arg); to.push(params[arg])]. *)
Definition strtr_from (params : params_t) : list string :=
  map token (params_entries params).

Definition strtr_to (params : params_t) : list string :=
  map snd (params_entries params).

(** The inner [for (j = 0; j < frm; j++)] loop at position [i]: the
    index at which it breaks, or [None] when it runs to [frm]. *)
Fixpoint strtr_inner (str : string) (i : nat) (from : list string) (j : nat)
  : option nat :=
  match from with
  | [] => None
  | f :: from' =>
      if String.eqb (JS.substr str i (String.length f)) f then Some j
      else strtr_inner str i from' (S j)
  end.

(** The outer [for (i = 0; i < len; i++)] loop. A match moves [i] to
    [(i + from[j].length) - 1] before the loop's own [i++]. *)
Fixpoint strtr_loop (fuel : nat) (str : string) (from to : list string)
  (i : nat) (ret : string) : string :=
  match fuel with
  | 0 => ret
  | S fuel' =>
      if (i <? String.length str)%nat then
        match strtr_inner str i from 0 with
        | Some j =>
            strtr_loop fuel' str from to
              (S ((i + String.length (nth j from "")) - 1))
              (ret +:+ nth j to "")
        | None =>
            strtr_loop fuel' str from to (S i) (ret +:+ JS.charAt str i)
        end
      else ret
  end.

(** Every iteration advances [i] by at least one, so [str.length]
    iterations always reach the end (see [strtr_loop_scan]). *)
Definition _strtr (str : string) (params : params_t) : string :=
  strtr_loop (String.length str) str (strtr_from params) (strtr_to params)
    0 "".

(** *** The scan as the specification words it *)

Fixpoint drop_units (n : nat) (s : string) : string :=
  match n, s with
  | 0, _ => s
  | S _, EmptyString => EmptyString
  | S n', String _ s' => drop_units n' s'
  end.

(** Whether the code unit [c] is written somewhere in [s]. *)
Fixpoint contains_unit (c : ascii) (s : string) : bool :=
  match s with
  | EmptyString => false
  | String d s' => Ascii.eqb d c || contains_unit c s'
  end.

(** The first entry of [params], in enumeration order, whose token
    [":name"] is written at the head of [s]. *)
Definition first_token (s : string) (kvs : list (string * string))
  : option (string * string) :=
  List.find (fun kv => String.prefix (token kv) s) kvs.

Equations? substitute_scan (s : string) (kvs : list (string * string))
  : string by wf (String.length s) lt :=
  substitute_scan EmptyString kvs := EmptyString;
  substitute_scan (String c s') kvs with first_token (String c s') kvs => {
    | Some kv :=
        snd kv +:+
        substitute_scan (drop_units (String.length (fst kv)) s') kvs;
    | None := String c (substitute_scan s' kvs) }.
Proof.
  - assert (Hdrop : forall n u,
      (String.length (drop_units n u) <= String.length u)%nat).
    { induction n as [|n IH]; intros [|d u]; simpl; try lia.
      specialize (IH u). lia. }
    specialize (Hdrop (String.length (fst kv)) s'). simpl. lia.
  - simpl. lia.
Qed.

(** ** Errors, records and collaborators *)

(** The error taxonomy. The source passes the collaborator's [err]
    value through unchanged; the model tags it with where it came from.
    [locales] throws a bare [new Error()]. *)
Inductive error : Type :=
| LoadError (reason : string)
| StoreError (reason : string)
| UndefinedLanguageError
| TypeError.

(** A document of the ['locales'] collection. *)
Record doc : Type := mkDoc {
  doc_language : string;
  doc_msg : string;
  doc_translation : string
}.

(** What the locale manager asks of the outside world, in the order the
    source issues the requests. *)
Inductive event : Type :=
| EvGlob (dir : string)
| EvRequire (filename : string)
| EvFind
| EvFindOne (language msg : string)
| EvSave (d : doc).

(** ** The prototype chain *)

(** What a property read can give, as far as the source tells values
    apart: by truthiness, and by what [_strtr] asks of its [str]
    ([length], [substr], [charAt]). A function has its arity as
    [length] and no [substr] or [charAt]; [VOther] stands for the values
    without a [length] (objects, numbers, booleans, [null]). *)
Inductive jsvalue : Type :=
| VString (s : string)
| VFunction (arity : nat)
| VOther (truthy : bool).

Definition value_truthy (v : jsvalue) : bool :=
  match v with
  | VString s => JS.truthy s
  | VFunction _ => true
  | VOther truthy => truthy
  end.

(** A read used as a condition; [undefined] is falsy. *)
Definition read_truthy (o : option jsvalue) : bool :=
  match o with
  | Some v => value_truthy v
  | None => false
  end.

(** The members of [Object.prototype], which every object literal
    inherits; [__proto__] reads as the prototype object itself. *)
Definition Object_prototype : list (string * jsvalue) :=
  [ ("constructor", VFunction 1);
    ("__defineGetter__", VFunction 2);
    ("__defineSetter__", VFunction 2);
    ("hasOwnProperty", VFunction 1);
    ("__lookupGetter__", VFunction 1);
    ("__lookupSetter__", VFunction 1);
    ("isPrototypeOf", VFunction 1);
    ("propertyIsEnumerable", VFunction 1);
    ("toString", VFunction 0);
    ("valueOf", VFunction 0);
    ("__proto__", VOther true);
    ("toLocaleString", VFunction 0) ].

Fixpoint member_of (members : list (string * jsvalue)) (name : string)
  : option jsvalue :=
  match members with
  | [] => None
  | (n, v) :: members' =>
      if String.eqb n name then Some v else member_of members' name
  end.

(** [({})[name]] for a name the object does not hold itself. *)
Definition inherited (name : string) : option jsvalue :=
  member_of Object_prototype name.

(** [_strtr(str, params)] for whatever value ended up in [str]: a
    function of positive arity enters the loop and fails on
    [str.substr] or [str.charAt]; a value whose [length] is [0] or
    [undefined] never enters it. *)
Definition strtr_value (v : jsvalue) (params : params_t) : error + string :=
  match v with
  | VString s => inr (_strtr s params)
  | VFunction 0 => inr ""
  | VFunction (S _) => inl TypeError
  | VOther _ => inr ""
  end.

(** The collaborators reached through [core] and the module loader, and
    the JavaScript runtime:
    - [fs_require filename]: [require(filename)], the parsed mapping in
      enumeration order, or the exception it throws;
    - [fs_glob dir]: [glob(path.join(dir, '**', '*.json'))];
    - [db_find], [db_findOne], [db_save]: the ['locales'] collection;
    - [member_get m p]: what property [p] of the member [m] of
      [Object.prototype] reads as, before the program wrote on it
      ([Object.name] is ["Object"], [Object.keys] a function, ...). *)
Record Core (DB : Type) : Type := mkCore {
  fs_require : string -> string + list (string * string);
  fs_glob : string -> string + list string;
  db_find : DB -> string + list doc;
  db_findOne : DB -> string -> string -> string + option doc;
  db_save : DB -> doc -> DB * option string;
  member_get : string -> string -> option jsvalue
}.
Arguments mkCore {DB}.
Arguments member_get {DB}.
Arguments fs_require {DB}.
Arguments fs_glob {DB}.
Arguments db_find {DB}.
Arguments db_findOne {DB}.
Arguments db_save {DB}.

(** ** The locale manager's state *)

(** [_locales]: language code to translation set. Under the name of a
    member of [Object.prototype] the table keeps the strings written on
    that member: [_locales] never holds such a name itself, since every
    read of it finds the member. *)
Abbreviation table := (gmap string (gmap string string)).

Record Locale (DB : Type) : Type := mkLocale {
  _locales : table;
  database : DB;
  journal : list event
}.
Arguments mkLocale {DB}.
Arguments _locales {DB}.
Arguments database {DB}.
Arguments journal {DB}.

Definition record_event {DB} (ev : event) (st : Locale DB) : Locale DB :=
  mkLocale (_locales st) (database st) (journal st ++ [ev])%list.

Definition with_locales {DB} (tbl : table) (st : Locale DB) : Locale DB :=
  mkLocale tbl (database st) (journal st).

(** [new Locale(core)]: an empty table. *)
Definition new_Locale {DB} (db : DB) : Locale DB := mkLocale ∅ db [].



(** What [tbl[language]] reads as: a translation set that [_locales]
    holds, a member of [Object.prototype] (with the strings written on
    it so far), or [undefined]. *)
Inductive language_slot : Type :=
| SlotSet (set : gmap string string)
| SlotMember (name : string) (written : gmap string string)
| SlotUndefined.

Definition read_language (tbl : table) (language : string) : language_slot :=
  match inherited language with
  | Some _ => SlotMember language (default ∅ (tbl !! language))
  | None =>
      match tbl !! language with
      | Some set => SlotSet set
      | None => SlotUndefined
      end
  end.

(** [if (tbl[language] === undefined) { tbl[language] = {}; }]: nothing
    is created where the read finds a set or an inherited member. *)
Definition ensure_language (language : string) (tbl : table) : table :=
  match read_language tbl language with
  | SlotUndefined => <[language := ∅]> tbl
  | SlotSet _ | SlotMember _ _ => tbl
  end.

(** [tbl[language][msg] = value], where [tbl[language]] is not
    [undefined]: the write lands on the set, or on the member. *)
Definition assign (language msg value : string) (tbl : table) : table :=
  match read_language tbl language with
  | SlotSet set => <[language := <[msg := value]> set]> tbl
  | SlotMember _ written => <[language := <[msg := value]> written]> tbl
  | SlotUndefined => tbl
  end.

(** The string that [tbl[language]] holds under [msg] itself. *)
Definition entry (language msg : string) (tbl : table) : option string :=
  tbl !! language ≫= (.!! msg).

(** [tbl[language]] is not [undefined]: a write on it has somewhere to
    land. *)
Definition writable (language : string) (tbl : table) : Prop :=
  is_Some (inherited language) \/ is_Some (tbl !! language).

(** A table entry used as a condition: [undefined] and [""] are falsy. *)
Definition entry_truthy (o : option string) : bool :=
  match o with
  | Some v => JS.truthy v
  | None => false
  end.

(** [async.series(queue, function (err) { done(err ? err : null); })]:
    tasks run one after the other; the first error ends the run. *)
Fixpoint series {St : Type} (queue : list (St -> St * option error))
  (st : St) : St * option error :=
  match queue with
  | [] => (st, None)
  | task :: rest =>
      match task st with
      | (st', Some err) => (st', Some err)
      | (st', None) => series rest st'
      end
  end.

(** [filename.split('.')[1]] used as a property name: a missing segment
    is [undefined], which names the property ["undefined"]. *)
Definition language_of (filename : string) : string :=
  nth 1 (JS.split "."%char filename) "undefined".

(** The filter of [addFromDir]:
    [splt.length === 3 && splt[1].length === 2]. *)
Definition eligible (item : string) : bool :=
  let splt := JS.split "."%char item in
  (List.length splt =? 3)%nat && (String.length (nth 1 splt "") =? 2)%nat.

(** One turn of [docs.forEach] in [_addFromDatabase]. *)
Definition apply_doc (tbl : table) (d : doc) : table :=
  assign (doc_language d) (doc_msg d) (doc_translation d)
    (ensure_language (doc_language d) tbl).

(** The object that [locales] returns. *)
Inductive language_object : Type :=
| TranslationSet (set : gmap string string)
| Member (name : string) (written : gmap string string).


Section Locale.

Context {DB : Type} (core : Core DB).

(** [tbl[language][msg]], for a [tbl[language]] that is not [undefined]:
    the string held under [msg], else what the prototype chain gives (a
    member of [Object.prototype] for a set, a property of the member for
    a member). *)
Definition read_msg (tbl : table) (language msg : string)
  : option jsvalue :=
  match entry language msg tbl with
  | Some v => Some (VString v)
  | None =>
      match read_language tbl language with
      | SlotSet _ => inherited msg
      | SlotMember name _ => member_get core name msg
      | SlotUndefined => None
      end
  end.

(** One turn of [for (var msg in locale)] in [_processFile]. *)
Definition process_msg (language : string) (tbl : table)
  (kv : string * string) : table :=
  if read_truthy (read_msg tbl language (fst kv)) then tbl
  else assign language (fst kv) (snd kv) tbl.

(** An entry of a file's mapping that a turn of the loop leaves the
    table unchanged on: its key already reads as truthy, or holds the
    entry's own value. *)
Definition settled (L : string) (tbl : table) (kv : string * string)
  : Prop :=
  read_truthy (read_msg tbl L (fst kv)) = true \/
  entry L (fst kv) tbl = Some (snd kv).

(** [Locale.prototype._addFromDatabase] *)
Definition _addFromDatabase (st : Locale DB) : Locale DB * option error :=
  let st := record_event EvFind st in
  match db_find core (database st) with
  | inl err => (st, Some (StoreError err))
  | inr docs =>
      (with_locales (fold_left apply_doc docs (_locales st)) st, None)
  end.

(** [Locale.prototype._processFile] *)
Definition _processFile (st : Locale DB) (filename : string)
  : Locale DB * option error :=
  let st := record_event (EvRequire filename) st in
  match fs_require core filename with
  | inl err => (st, Some (LoadError err))
  | inr locale =>
      let language := language_of filename in
      let tbl := ensure_language language (_locales st) in
      (with_locales (fold_left (process_msg language) locale tbl) st, None)
  end.

(** [Locale.prototype.addFromFile] *)
Definition addFromFile (st : Locale DB) (filename : string)
  : Locale DB * option error :=
  _processFile st filename.

(** The local [processFile(filename)] of [addFromDir]: the queued
    task [function (next) { me.addFromFile(filename, next); }]. *)
Definition processFile (filename : string)
  : Locale DB -> Locale DB * option error :=
  fun st => addFromFile st filename.

(** [Locale.prototype.addFromDir] *)
Definition addFromDir (st : Locale DB) (dir : string)
  : Locale DB * option error :=
  let st := record_event (EvGlob dir) st in
  match fs_glob core dir with
  | inl err => (st, Some (LoadError err))
  | inr files =>
      let queue := map processFile (List.filter eligible files) in
      series queue st
  end.

(** [Locale.prototype.locales] *)
Definition locales (st : Locale DB) (language : string)
  : error + language_object :=
  match read_language (_locales st) language with
  | SlotUndefined => inl UndefinedLanguageError
  | SlotSet set => inr (TranslationSet set)
  | SlotMember name written => inr (Member name written)
  end.

(** [Locale.prototype.initialize]; [dir] may be missing. *)
Definition initialize (st : Locale DB) (dir : option string)
  : Locale DB * option error :=
  let queue :=
    (match dir with
     | Some d =>
         if JS.truthy d then [fun st => addFromDir st d] else []
     | None => []
     end ++ [_addFromDatabase])%list in
  series queue st.

(** [Locale.prototype.translate] *)
Definition translate (st : Locale DB) (language str translation : string)
  : Locale DB * option error :=
  let st := record_event (EvFindOne language str) st in
  match db_findOne core (database st) language str with
  | inl err => (st, Some (StoreError err))
  | inr found =>
      let d :=
        match found with
        | Some d => mkDoc (doc_language d) (doc_msg d) translation
        | None => mkDoc language str translation
        end in
      let tbl :=
        assign language str translation
          (ensure_language language (_locales st)) in
      let '(db, err2) := db_save core (database st) d in
      (mkLocale tbl db (journal st ++ [EvSave d])%list,
       match err2 with
       | Some err => Some (StoreError err)
       | None => None
       end)
  end.

(** [Locale.prototype.t]: the read [this._locales[language][str]]
    replaces [str] when it is truthy, whatever it is. *)
Definition t (st : Locale DB) (language str : string) (params : params_t)
  : error + string :=
  let str :=
    match read_language (_locales st) language with
    | SlotUndefined => VString str
    | SlotSet _ | SlotMember _ _ =>
        match read_msg (_locales st) language str with
        | Some v => if value_truthy v then v else VString str
        | None => VString str
        end
    end in
  strtr_value str params.

End Locale.

(** ** A concrete world: the fixtures of [tests/Locale.test.js]

    An in-memory collection that can be switched to refuse reads or
    writes, and a disk holding the three translation files of the test
    suite plus a few files that exercise the corners of the loader. *)

Module Sample.

Record db : Type := mkDb {
  docs : list doc;
  reads_fail : bool;
  writes_fail : bool
}.

Definition same_key (language msg : string) (d : doc) : bool :=
  String.eqb (doc_language d) language && String.eqb (doc_msg d) msg.

Definition find (s : db) : string + list doc :=
  if reads_fail s then inl "connection lost" else inr (docs s).

Definition findOne (s : db) (language msg : string)
  : string + option doc :=
  if reads_fail s then inl "connection lost"
  else inr (List.find (same_key language msg) (docs s)).

Definition save (s : db) (d : doc) : db * option string :=
  if writes_fail s then (s, Some "write refused")
  else
    (mkDb
       (d :: List.filter
               (fun d' => negb (same_key (doc_language d) (doc_msg d) d'))
               (docs s))
       (reads_fail s) (writes_fail s),
     None).

(** A file is either parseable ([Some mapping]) or malformed. *)
Definition disk : list (string * option (list (string * string))) :=
  [ ("tmp/test1.fr.json", Some [("Hello world", "Foo bar")]);
    ("tmp/test2.fr.json",
      Some [("Hello world", "Foo bar 2");
            ("Hello :name, welcome back", "Foo :name, bar")]);
    ("tmp/test1.jp.json",
      Some [("Hello :name, welcome back", "Goodbye :name")]);
    ("tmp/blank.fr.json", Some [("Hello world", "")]);
    ("tmp/empty.de.json", Some []);
    ("tmp/empty.fr.json", Some []);
    ("tmp/package.json", Some [("name", "entity-locale")]);
    ("tmp/proto.fr.json", Some [("constructor", "constructeur")]);
    ("tmp/x.constructor.json", Some []);
    ("tmp/broken.fr.json", None) ].

Fixpoint read (files : list (string * option (list (string * string))))
  (filename : string) : string + list (string * string) :=
  match files with
  | [] => inl "Cannot find module"
  | (name, content) :: files' =>
      if String.eqb name filename then
        match content with
        | Some mapping => inr mapping
        | None => inl "Unexpected token"
        end
      else read files' filename
  end.

Definition require (filename : string) : string + list (string * string) :=
  read disk filename.

Definition glob (dir : string) : string + list string :=
  if String.eqb dir "tmp" then inr (map fst disk)
  else if String.eqb dir "fr" then
    inr ["tmp/test1.fr.json"; "tmp/broken.fr.json"; "tmp/test2.fr.json"]
  else if String.eqb dir "mixed" then
    inr ["tmp/test1.fr.json"; "tmp/package.json"; "tmp/notes.fra.json";
         "tmp/test1.jp.json"]
  else inl "ENOENT".

(** The runtime, as far as the examples look: the members are functions
    named after themselves, apart from [constructor], which is [Object],
    and [__proto__], which is the prototype object; functions inherit
    [call], [apply] and [bind], and everything inherits the members of
    [Object.prototype]. *)
Definition runtime (member prop : string) : option jsvalue :=
  match inherited member with
  | Some (VFunction arity) =>
      if String.eqb prop "name" then
        Some (VString
                (if String.eqb member "constructor" then "Object"
                 else member))
      else if String.eqb prop "length" then
        Some (VOther (negb (arity =? 0)%nat))
      else if String.eqb prop "keys" then
        (if String.eqb member "constructor" then Some (VFunction 1)
         else None)
      else if String.eqb prop "call" then Some (VFunction 1)
      else if String.eqb prop "apply" then Some (VFunction 2)
      else if String.eqb prop "bind" then Some (VFunction 1)
      else inherited prop
  | Some _ =>
      if String.eqb prop "__proto__" then Some (VOther false)
      else inherited prop
  | None => None
  end.

Definition core : Core db :=
  mkCore require glob find findOne save runtime.

Definition online (ds : list doc) : db := mkDb ds false false.

End Sample.


(** * Properties *)

(** ** Strings *)

Lemma append_cons c (a b : string) : String c a +:+ b = String c (a +:+ b).
Proof. reflexivity. Qed.

Lemma append_empty_r (s : string) : s +:+ "" = s.
Proof.
  induction s as [|c s IH]; [reflexivity | by rewrite append_cons, IH].
Qed.

Lemma append_assoc (a b c : string) : (a +:+ b) +:+ c = a +:+ (b +:+ c).
Proof.
  induction a as [|x a IH]; [reflexivity | by rewrite !append_cons, IH].
Qed.

Lemma drop_units_length n s :
  String.length (drop_units n s) = String.length s - n.
Proof.
  revert s; induction n as [|n IH]; intros [|c s]; simpl; auto with lia.
Qed.

Lemma drop_units_empty n : drop_units n "" = "".
Proof. by destruct n. Qed.

Lemma drop_units_ge i s : String.length s <= i -> drop_units i s = "".
Proof.
  intros Hle. pose proof (drop_units_length i s) as Hlen.
  destruct (drop_units i s); [reflexivity | simpl in Hlen; lia].
Qed.

Lemma drop_units_S i s :
  drop_units (S i) s = drop_units 1 (drop_units i s).
Proof.
  revert s; induction i as [|i IH]; intros [|c s]; try reflexivity.
  change (drop_units (S (S i)) (String c s)) with (drop_units (S i) s).
  change (drop_units (S i) (String c s)) with (drop_units i s).
  apply IH.
Qed.

Lemma drop_units_add n m s :
  drop_units n (drop_units m s) = drop_units (m + n) s.
Proof.
  revert s; induction m as [|m IH]; intros s; [reflexivity |].
  destruct s as [|c s]; simpl; [apply drop_units_empty | apply IH].
Qed.

Lemma substr_drop_units str i n :
  JS.substr str i n = JS.substr (drop_units i str) 0 n.
Proof.
  unfold JS.substr. revert str; induction i as [|i IH]; intros str.
  - reflexivity.
  - destruct str as [|c str]; simpl.
    + by destruct n.
    + apply IH.
Qed.

Lemma substr_eqb_prefix f s :
  String.eqb (JS.substr s 0 (String.length f)) f = String.prefix f s.
Proof.
  unfold JS.substr. revert s; induction f as [|c f IH]; intros s.
  - by destruct s.
  - destruct s as [|d s]; simpl; [reflexivity |].
    rewrite IH. destruct (Ascii.eqb_spec d c) as [->|Hne].
    + destruct (ascii_dec c c); [reflexivity | congruence].
    + destruct (ascii_dec c d); [congruence | reflexivity].
Qed.

(** ** [_strtr] against the scan of the specification *)

(** The inner loop breaks at the first entry whose token is written at
    position [i], and runs to the end exactly when there is none. *)
Lemma strtr_inner_first_token str i kvs j0 :
  match first_token (drop_units i str) kvs with
  | Some kv =>
      exists k,
        strtr_inner str i (map token kvs) j0 = Some (j0 + k) /\
        nth k (map token kvs) "" = token kv /\
        nth k (map snd kvs) "" = snd kv
  | None => strtr_inner str i (map token kvs) j0 = None
  end.
Proof.
  unfold first_token. revert j0.
  induction kvs as [|kv kvs IH]; intros j0; [reflexivity |].
  cbn [map strtr_inner List.find].
  rewrite substr_drop_units, substr_eqb_prefix.
  destruct (String.prefix (token kv) (drop_units i str)).
  - exists 0. rewrite Nat.add_0_r. auto.
  - specialize (IH (S j0)).
    destruct (List.find _ kvs) as [kv'|]; [|exact IH].
    destruct IH as (k & Hk & Hfrom & Hto).
    exists (S k). rewrite <- Nat.add_succ_comm. auto.
Qed.

Lemma charAt_drop_units str i c s' :
  drop_units i str = String c s' -> JS.charAt str i = String c "".
Proof.
  intros Hd. unfold JS.charAt. fold (JS.substr str i 1).
  rewrite substr_drop_units, Hd. unfold JS.substr. simpl. by destruct s'.
Qed.

(** With fuel for every remaining code unit, the loop computes the scan
    of the rest of the string. *)
Lemma strtr_loop_scan kvs str fuel i ret :
  String.length str - i <= fuel ->
  strtr_loop fuel str (map token kvs) (map snd kvs) i ret =
  ret +:+ substitute_scan (drop_units i str) kvs.
Proof.
  revert i ret. induction fuel as [|fuel IH]; intros i ret Hfuel.
  - rewrite drop_units_ge by lia. simp substitute_scan.
    by rewrite append_empty_r.
  - cbn [strtr_loop].
    destruct (Nat.ltb_spec i (String.length str)) as [Hlt|Hge].
    2:{ rewrite drop_units_ge by lia. simp substitute_scan.
        by rewrite append_empty_r. }
    pose proof (drop_units_length i str) as Hlen.
    pose proof (strtr_inner_first_token str i kvs 0) as Hinner.
    pose proof (drop_units_S i str) as Hnext.
    destruct (drop_units i str) as [|c s'] eqn:Hd; [simpl in Hlen; lia |].
    simp substitute_scan.
    destruct (first_token (String c s') kvs) as [kv|] eqn:Hft.
    + destruct Hinner as (k & -> & Hfrom & Hto). cbn [Nat.add].
      rewrite Hfrom, Hto.
      change (String.length (token kv)) with (S (String.length (fst kv))).
      replace (S (i + S (String.length (fst kv)) - 1))
        with (S i + String.length (fst kv)) by lia.
      rewrite IH by (simpl in Hlen; lia).
      rewrite <- drop_units_add, Hnext. simp substitute_scan.
      by rewrite append_assoc.
    + rewrite Hinner. rewrite IH by lia.
      rewrite (charAt_drop_units _ _ _ _ Hd), Hnext. simp substitute_scan.
      by rewrite append_assoc.
Qed.

Lemma substitute_scan_no_tokens (s : string) : substitute_scan s [] = s.
Proof.
  induction s as [|c s IH]; simp substitute_scan; [reflexivity |].
  cbn. simp substitute_scan. by rewrite IH.
Qed.

Lemma strtr_scan (str : string) (params : params_t) :
  _strtr str params = substitute_scan str (params_entries params).
Proof.
  unfold _strtr, strtr_from, strtr_to.
  rewrite strtr_loop_scan by lia. reflexivity.
Qed.

(** The two step equations of the scan, read on the code. *)
Lemma strtr_step_token c s params kv :
  first_token (String c s) (params_entries params) = Some kv ->
  _strtr (String c s) params =
  snd kv +:+ _strtr (drop_units (String.length (fst kv)) s) params.
Proof.
  intros Hft. rewrite !strtr_scan. simp substitute_scan.
  rewrite Hft. by simp substitute_scan.
Qed.

Lemma strtr_step_unit c s params :
  first_token (String c s) (params_entries params) = None ->
  _strtr (String c s) params = String c (_strtr s params).
Proof.
  intros Hft. rewrite !strtr_scan. simp substitute_scan.
  rewrite Hft. by simp substitute_scan.
Qed.

(** C5. [_strtr str params] is the single left-to-right scan of the
    specification: at each position the first entry of [params], in
    enumeration order, whose token [":name"] is written there is replaced
    by its value and the scan resumes after the token; otherwise the
    current code unit is copied and the scan moves one unit on. With
    [params] absent or empty the result is [str]. *)
Theorem strtr_single_scan (str : string) (params : params_t) :
  _strtr str params = substitute_scan str (params_entries params) /\
  _strtr str None = str /\
  _strtr str (Some []) = str.
Proof.
  split; [apply strtr_scan |].
  split; rewrite strtr_scan; apply substitute_scan_no_tokens.
Qed.

(** ** The prototype chain *)




(** ** The table operations *)

Lemma read_language_own L (tbl : table) :
  inherited L = None ->
  read_language tbl L =
  match tbl !! L with
  | Some set => SlotSet set
  | None => SlotUndefined
  end.
Proof. intros Hi. unfold read_language. by rewrite Hi. Qed.




Lemma lookup_ensure_language L L' (tbl : table) :
  ensure_language L tbl !! L' =
  if decide (L = L') then
    match inherited L with
    | Some _ => tbl !! L
    | None => Some (default ∅ (tbl !! L))
    end
  else tbl !! L'.
Proof.
  unfold ensure_language, read_language.
  destruct (inherited L) as [m|]; [by case_decide; subst |].
  case_decide as Heq.
  - subst L'. destruct (tbl !! L) as [set|] eqn:Hl; simpl.
    + exact Hl.
    + apply lookup_insert_eq.
  - destruct (tbl !! L); [reflexivity | by apply lookup_insert_ne].
Qed.

Lemma ensure_writable L (tbl : table) : writable L (ensure_language L tbl).
Proof.
  unfold writable. rewrite lookup_ensure_language, decide_True by done.
  destruct (inherited L); [left | right]; eauto.
Qed.

Lemma ensure_language_writable L (tbl : table) :
  writable L tbl -> ensure_language L tbl = tbl.
Proof.
  unfold ensure_language, read_language.
  intros [[m Hm]|[set Hset]]; [by rewrite Hm |].
  rewrite Hset. by destruct (inherited L).
Qed.

Lemma ensure_language_present L (tbl : table) :
  is_Some (tbl !! L) -> ensure_language L tbl = tbl.
Proof. intros Hp. apply ensure_language_writable. by right. Qed.


Lemma ensure_language_keeps L L' (tbl : table) :
  is_Some (tbl !! L') -> is_Some (ensure_language L tbl !! L').
Proof.
  intros Hp. rewrite lookup_ensure_language. case_decide; [subst |done].
  destruct (inherited L'); [done | eauto].
Qed.

Lemma entry_ensure_language L L' k (tbl : table) :
  entry L' k (ensure_language L tbl) = entry L' k tbl.
Proof.
  unfold entry. rewrite lookup_ensure_language. case_decide; [|reflexivity].
  subst L'. destruct (inherited L); [reflexivity |].
  by destruct (tbl !! L).
Qed.

Lemma lookup_assign_ne L k v L' (tbl : table) :
  L <> L' -> assign L k v tbl !! L' = tbl !! L'.
Proof.
  intros Hne. unfold assign.
  destruct (read_language tbl L); try done; by apply lookup_insert_ne.
Qed.

Lemma lookup_assign_eq L k v (tbl : table) :
  writable L tbl ->
  assign L k v tbl !! L = Some (<[k := v]> (default ∅ (tbl !! L))).
Proof.
  unfold assign, read_language, writable.
  destruct (inherited L) as [m|]; [intros _; apply lookup_insert_eq |].
  intros [[? [=]]|[set Hset]]. rewrite Hset. apply lookup_insert_eq.
Qed.

Lemma entry_assign_eq L k v (tbl : table) :
  writable L tbl -> entry L k (assign L k v tbl) = Some v.
Proof.
  intros Hw. unfold entry. rewrite lookup_assign_eq by done.
  simpl. apply lookup_insert_eq.
Qed.

Lemma entry_assign_ne L k v L' k' (tbl : table) :
  (L, k) <> (L', k') -> entry L' k' (assign L k v tbl) = entry L' k' tbl.
Proof.
  intros Hne. destruct (decide (L = L')) as [<-|HL].
  - unfold entry, assign, read_language.
    destruct (inherited L) as [m|], (tbl !! L) as [set|] eqn:Hset;
      rewrite ?Hset; try done;
      rewrite lookup_insert_eq; simpl;
      rewrite lookup_insert_ne by congruence; done.
  - unfold entry. by rewrite lookup_assign_ne.
Qed.

Lemma assign_present L k v L' (tbl : table) :
  is_Some (tbl !! L') -> is_Some (assign L k v tbl !! L').
Proof.
  intros Hp. destruct (decide (L = L')) as [<-|Hne].
  - rewrite lookup_assign_eq; [eauto | by right].
  - by rewrite lookup_assign_ne.
Qed.

Lemma assign_writable L k v L' (tbl : table) :
  writable L' tbl -> writable L' (assign L k v tbl).
Proof.
  intros [Hi|Hp]; [by left | right; by apply assign_present].
Qed.

(** For a name [_locales] can hold itself, a write neither creates nor
    removes the set. *)
Lemma assign_own_presence L k v L' (tbl : table) :
  inherited L' = None ->
  is_Some (assign L k v tbl !! L') <-> is_Some (tbl !! L').
Proof.
  intros Hi. split; [|apply assign_present].
  destruct (decide (L = L')) as [<-|Hne]; [|by rewrite lookup_assign_ne].
  unfold assign. rewrite read_language_own by done.
  destruct (tbl !! L) as [set|] eqn:Hset; [eauto | by rewrite Hset].
Qed.

Lemma assign_same L k v (tbl : table) :
  entry L k tbl = Some v -> assign L k v tbl = tbl.
Proof.
  unfold entry. intros Hentry.
  destruct (tbl !! L) as [set|] eqn:Hset; [simpl in Hentry | done].
  unfold assign, read_language. rewrite Hset. simpl.
  destruct (inherited L); rewrite (insert_id set) by done;
    by apply insert_id.
Qed.




Lemma entry_truthy_true_iff (o : option string) :
  entry_truthy o = true <-> exists v, o = Some v /\ v <> "".
Proof.
  destruct o as [[|c v]|]; simpl; split; try done.
  - intros (v & [= <-] & Hne). done.
  - intros _. by eexists.
  - intros (v & [=] & _).
Qed.

Lemma entry_truthy_false_iff (o : option string) :
  entry_truthy o = false <-> o = None \/ o = Some "".
Proof.
  destruct o as [[|c v]|]; simpl; split; auto; try done.
  intros [[=]|[=]].
Qed.

(** *** Reads through the chain *)

Section Reads.

Context {DB : Type} (core : Core DB).

(** A read of [tbl[L][k]] looks at the string held under [k] and, for a
    name the table can hold itself, at whether the set is there. *)
Lemma read_msg_ext (tbl1 tbl2 : table) L k :
  entry L k tbl1 = entry L k tbl2 ->
  (inherited L = None -> (is_Some (tbl1 !! L) <-> is_Some (tbl2 !! L))) ->
  read_msg core tbl1 L k = read_msg core tbl2 L k.
Proof.
  intros Hentry Hp. unfold read_msg. rewrite Hentry.
  destruct (entry L k tbl2); [reflexivity |].
  unfold read_language. destruct (inherited L) as [m|]; [reflexivity |].
  specialize (Hp eq_refl).
  destruct (tbl1 !! L), (tbl2 !! L); try reflexivity.
  - destruct Hp as [Hp _]. by destruct Hp as [? ?]; [eauto |].
  - destruct Hp as [_ Hp]. by destruct Hp as [? ?]; [eauto |].
Qed.

Lemma read_msg_entry (tbl : table) L k v :
  entry L k tbl = Some v -> read_msg core tbl L k = Some (VString v).
Proof. intros Hentry. unfold read_msg. by rewrite Hentry. Qed.

Lemma read_truthy_entry (tbl : table) L k :
  entry_truthy (entry L k tbl) = true ->
  read_truthy (read_msg core tbl L k) = true.
Proof.
  destruct (entry L k tbl) as [v|] eqn:Hentry; [|done].
  by rewrite (read_msg_entry _ _ _ _ Hentry).
Qed.




(** *** [_processFile]'s loop *)

Lemma process_msg_other L (tbl : table) kv L' :
  L <> L' -> process_msg core L tbl kv !! L' = tbl !! L'.
Proof.
  intros Hne. unfold process_msg.
  destruct (read_truthy _); [reflexivity | by apply lookup_assign_ne].
Qed.

Lemma process_msg_present L (tbl : table) kv L' :
  is_Some (tbl !! L') -> is_Some (process_msg core L tbl kv !! L').
Proof.
  unfold process_msg. destruct (read_truthy _); [done |].
  apply assign_present.
Qed.

Lemma process_msg_writable L (tbl : table) kv L' :
  writable L' tbl -> writable L' (process_msg core L tbl kv).
Proof.
  unfold process_msg. destruct (read_truthy _); [done |].
  apply assign_writable.
Qed.

Lemma process_msg_own_presence L (tbl : table) kv L' :
  inherited L' = None ->
  is_Some (process_msg core L tbl kv !! L') <-> is_Some (tbl !! L').
Proof.
  intros Hi. unfold process_msg. destruct (read_truthy _); [done |].
  by apply assign_own_presence.
Qed.

Lemma process_msg_truthy L (tbl : table) kv k :
  entry_truthy (entry L k tbl) = true ->
  entry L k (process_msg core L tbl kv) = entry L k tbl.
Proof.
  intros Ht. unfold process_msg.
  destruct (read_truthy (read_msg core tbl L (fst kv))) eqn:Hk;
    [reflexivity |].
  apply entry_assign_ne. intros [= Hsame]. subst k.
  by rewrite read_truthy_entry in Hk.
Qed.

Lemma process_msg_absent_key L (tbl : table) kv k :
  fst kv <> k -> entry L k (process_msg core L tbl kv) = entry L k tbl.
Proof.
  intros Hne. unfold process_msg.
  destruct (read_truthy _); [reflexivity |].
  apply entry_assign_ne. congruence.
Qed.

Lemma process_msg_read_other L (tbl : table) kv k :
  fst kv <> k ->
  read_msg core (process_msg core L tbl kv) L k = read_msg core tbl L k.
Proof.
  intros Hne. apply read_msg_ext.
  - by apply process_msg_absent_key.
  - intros Hi. by apply process_msg_own_presence.
Qed.

Lemma process_file_other L locale (tbl : table) L' :
  L <> L' -> fold_left (process_msg core L) locale tbl !! L' = tbl !! L'.
Proof.
  intros Hne. revert tbl.
  induction locale as [|kv locale IH]; intros tbl; [reflexivity |].
  simpl. rewrite IH. by apply process_msg_other.
Qed.

Lemma process_file_present L locale (tbl : table) L' :
  is_Some (tbl !! L') ->
  is_Some (fold_left (process_msg core L) locale tbl !! L').
Proof.
  revert tbl. induction locale as [|kv locale IH]; intros tbl Hp; [done |].
  simpl. apply IH. by apply process_msg_present.
Qed.

Lemma process_file_own_presence L locale (tbl : table) L' :
  inherited L' = None ->
  is_Some (fold_left (process_msg core L) locale tbl !! L') <->
  is_Some (tbl !! L').
Proof.
  intros Hi. revert tbl.
  induction locale as [|kv locale IH]; intros tbl; [done |].
  simpl. rewrite IH. by apply process_msg_own_presence.
Qed.

Lemma process_file_truthy L locale (tbl : table) k :
  entry_truthy (entry L k tbl) = true ->
  entry L k (fold_left (process_msg core L) locale tbl) = entry L k tbl.
Proof.
  revert tbl. induction locale as [|kv locale IH]; intros tbl Ht; [done |].
  simpl. rewrite IH; rewrite process_msg_truthy; done.
Qed.





End Reads.

(** *** [_addFromDatabase]'s loop *)



Lemma apply_doc_present (tbl : table) d L :
  is_Some (tbl !! L) -> is_Some (apply_doc tbl d !! L).
Proof.
  intros Hp. unfold apply_doc. by apply assign_present, ensure_language_keeps.
Qed.



(** ** File loading *)

Section FileLoading.

Context {DB : Type} (core : Core DB).

Lemma addFromFile_ok (st : Locale DB) filename locale :
  fs_require core filename = inr locale ->
  addFromFile core st filename =
  (with_locales
     (fold_left (process_msg core (language_of filename)) locale
        (ensure_language (language_of filename) (_locales st)))
     (record_event (EvRequire filename) st),
   None).
Proof. intros Hreq. unfold addFromFile, _processFile. by rewrite Hreq. Qed.


Lemma addFromFile_success_inv (st : Locale DB) filename :
  snd (addFromFile core st filename) = None ->
  exists locale, fs_require core filename = inr locale.
Proof.
  unfold addFromFile, _processFile.
  destruct (fs_require core filename) as [err|locale]; [done | eauto].
Qed.

Lemma addFromFile_database (st : Locale DB) filename :
  database (fst (addFromFile core st filename)) = database st.
Proof.
  unfold addFromFile, _processFile.
  by destruct (fs_require core filename).
Qed.

Lemma addFromFile_journal (st : Locale DB) filename :
  journal (fst (addFromFile core st filename)) =
  journal st ++ [EvRequire filename].
Proof.
  unfold addFromFile, _processFile.
  by destruct (fs_require core filename).
Qed.

(** Whatever the outcome, a language that was present stays present. *)
Lemma addFromFile_present (st : Locale DB) filename L :
  is_Some (_locales st !! L) ->
  is_Some (_locales (fst (addFromFile core st filename)) !! L).
Proof.
  intros Hp. unfold addFromFile, _processFile.
  destruct (fs_require core filename) as [err|locale]; [done |].
  simpl. by apply process_file_present, ensure_language_keeps.
Qed.

End FileLoading.




(** ** Sequences of loads *)

Section Sequences.

Context {DB : Type} (core : Core DB).

(** A run of file loads stops at a prefix of its queue, and its
    journal lists exactly the files of that prefix. *)
Lemma load_queue_journal (queue : list string) (st : Locale DB) :
  exists attempted rest,
    queue = attempted ++ rest /\
    journal (fst (series (map (processFile core) queue) st)) =
    journal st ++ map EvRequire attempted /\
    (snd (series (map (processFile core) queue) st) = None -> rest = []).
Proof.
  revert st. induction queue as [|f queue IH]; intros st.
  - exists [], []. simpl. by rewrite app_nil_r.
  - cbn [map series].
    change (processFile core f st) with (addFromFile core st f).
    pose proof (addFromFile_journal core st f) as Hj.
    destruct (addFromFile core st f) as [st1 [err|]] eqn:Hrun.
    + exists [f], queue. simpl in *. by rewrite Hj.
    + destruct (IH st1) as (attempted & rest & -> & Hj' & Hrest).
      exists (f :: attempted), rest. simpl in *.
      rewrite Hj', Hj, <- app_assoc. done.
Qed.


Lemma load_queue_database (queue : list string) (st : Locale DB) :
  database (fst (series (map (processFile core) queue) st)) = database st.
Proof.
  revert st. induction queue as [|f queue IH]; intros st; [done |].
  cbn [map series].
  change (processFile core f st) with (addFromFile core st f).
  pose proof (addFromFile_database core st f) as Hdb.
  destruct (addFromFile core st f) as [st1 [err|]]; [done |].
  rewrite IH. exact Hdb.
Qed.

Lemma addFromDir_database (st : Locale DB) dir :
  database (fst (addFromDir core st dir)) = database st.
Proof.
  unfold addFromDir. destruct (fs_glob core dir) as [err|files]; [done |].
  by rewrite load_queue_database.
Qed.

Lemma load_queue_keeps_languages (queue : list string) (st : Locale DB) L :
  is_Some (_locales st !! L) ->
  is_Some (_locales (fst (series (map (processFile core) queue) st)) !! L).
Proof.
  revert st. induction queue as [|f queue IH]; intros st Hp; [done |].
  cbn [map series].
  change (processFile core f st) with (addFromFile core st f).
  pose proof (addFromFile_present core st f L Hp) as Hp'.
  destruct (addFromFile core st f) as [st1 [err|]]; [done |].
  by apply IH.
Qed.





Lemma initialize_with_dir (st : Locale DB) d :
  JS.truthy d = true ->
  initialize core st (Some d) =
  match addFromDir core st d with
  | (st1, Some err) => (st1, Some err)
  | (st1, None) => _addFromDatabase core st1
  end.
Proof.
  intros Hd. unfold initialize. rewrite Hd. simpl.
  destruct (addFromDir core st d) as [st1 [err|]]; [done |].
  by destruct (_addFromDatabase core st1) as [st2 [err|]].
Qed.

Lemma initialize_without_dir (st : Locale DB) dir :
  dir = None \/ dir = Some "" ->
  initialize core st dir = _addFromDatabase core st.
Proof.
  intros [-> | ->]; unfold initialize; simpl;
    by destruct (_addFromDatabase core st) as [st2 [err|]].
Qed.

End Sequences.

Lemma eligible_shape (item : string) :
  eligible item = true <->
  List.length (JS.split "."%char item) = 3 /\
  String.length (nth 1 (JS.split "."%char item) "") = 2.
Proof.
  unfold eligible. cbv zeta.
  rewrite andb_true_iff, !Nat.eqb_eq. reflexivity.
Qed.




(** ** The database *)

Section Database.

Context {DB : Type} (core : Core DB).




End Database.



(** ** Lookups *)

(** A language enters the table only through an operation that names
    it: the other operations leave its absence, or its set, as it was. *)
Lemma apply_docs_other_languages (tbl : table) docs L :
  Forall (fun d => doc_language d <> L) docs ->
  fold_left apply_doc docs tbl !! L = tbl !! L.
Proof.
  revert tbl. induction docs as [|d docs IH]; intros tbl Hall; [done |].
  apply Forall_cons in Hall as [Hd Hall]. simpl. rewrite IH by done.
  unfold apply_doc.
  by rewrite lookup_assign_ne, lookup_ensure_language, decide_False.
Qed.

Lemma translate_other_languages {DB} (core : Core DB) (st : Locale DB)
  language key translation L :
  language <> L ->
  _locales (fst (translate core st language key translation)) !! L =
  _locales st !! L.
Proof.
  intros Hne. unfold translate. simpl.
  destruct (db_findOne core (database st) language key) as [reason|found];
    [done |].
  destruct (db_save core (database st) _) as [db' err2]. simpl.
  by rewrite lookup_assign_ne, lookup_ensure_language, decide_False.
Qed.



(** * The fixtures, run *)

(** The suite's [shouldReturnMsgWithNoParams] and
    [shouldReturnMsgWithParams]. *)
Example strtr_test_no_params : _strtr "Hello world" None = "Hello world".
Proof. reflexivity. Qed.

Example strtr_test_params :
  _strtr "Hello :arg" (Some [("arg", "world")]) = "Hello world".
Proof. reflexivity. Qed.

(** Ties go to the entry enumerated first, not to the longest token. *)
Example strtr_enumeration_order :
  _strtr "x :ab y" (Some [("a", "1"); ("ab", "2")]) = "x 1b y" /\
  substitute_scan "x :ab y" [("a", "1"); ("ab", "2")] = "x 1b y".
Proof. split; reflexivity. Qed.

(** The suite's [shouldMergeButNotReplace] and
    [shouldReturnTranslatedMsgWithParams]. *)
Example sample_merge_but_not_replace :
  let st0 := new_Locale (Sample.online []) in
  let st1 := fst (addFromFile Sample.core st0 "tmp/test1.fr.json") in
  let st2 := fst (addFromFile Sample.core st1 "tmp/test2.fr.json") in
  locales st2 "fr" =
    inr (TranslationSet
           (<["Hello world" := "Foo bar"]>
              (<["Hello :name, welcome back" := "Foo :name, bar"]> ∅))) /\
  t Sample.core st2 "fr" "Hello :name, welcome back"
    (Some [("name", "John")]) = inr "Foo John, bar".
Proof. vm_compute. split; reflexivity. Qed.

(** Reads through the prototype chain, on a table that holds nothing
    under the names read: [locales] returns the member, [t] takes a
    property of the member or the member itself for the translation, and
    a file's key that reads as a member is never stored. *)
Example sample_inherited_names :
  let st0 := new_Locale (Sample.online []) in
  let st1 := fst (addFromFile Sample.core st0 "tmp/test1.fr.json") in
  let st2 := fst (addFromFile Sample.core st0 "tmp/proto.fr.json") in
  locales st0 "constructor" = inr (Member "constructor" ∅) /\
  t Sample.core st0 "constructor" "name" None = inr "Object" /\
  t Sample.core st0 "fr" "constructor" None = inr "constructor" /\
  t Sample.core st1 "fr" "constructor" None = inl TypeError /\
  t Sample.core st1 "fr" "toString" None = inr "" /\
  locales st2 "fr" = inr (TranslationSet ∅).
Proof. vm_compute. repeat split; reflexivity. Qed.















(** * Further properties of the code *)

(** ** [_strtr] *)

Lemma prefix_cons c d (a b : string) :
  String.prefix (String c a) (String d b) =
  if ascii_dec c d then String.prefix a b else false.
Proof. reflexivity. Qed.

Lemma prefix_append (a b : string) : String.prefix a (a +:+ b) = true.
Proof.
  induction a as [|c a IH]; [by destruct b |].
  rewrite append_cons, prefix_cons. by destruct (ascii_dec c c).
Qed.

Lemma drop_units_append (a b : string) :
  drop_units (String.length a) (a +:+ b) = b.
Proof. induction a as [|c a IH]; [reflexivity | exact IH]. Qed.

Lemma first_token_other_unit c s kvs :
  c <> ":"%char -> first_token (String c s) kvs = None.
Proof.
  intros Hc. unfold first_token.
  induction kvs as [|kv kvs IH]; [reflexivity |].
  cbn [List.find]. unfold token at 1.
  change (":" +:+ fst kv) with (String ":" (fst kv)).
  rewrite prefix_cons.
  destruct (ascii_dec ":" c) as [Heq|_]; [congruence | exact IH].
Qed.

(** Text before the first colon is copied as it is: every token starts
    with a colon, so nothing can match inside it. *)
Theorem strtr_copies_colon_free_prefix (a b : string) (params : params_t) :
  contains_unit ":" a = false ->
  _strtr (a +:+ b) params = a +:+ _strtr b params.
Proof.
  induction a as [|c a IH]; intros Hfree; [reflexivity |].
  simpl in Hfree. apply orb_false_iff in Hfree as [Hc Hfree].
  rewrite !append_cons, strtr_step_unit, IH by
    (try apply first_token_other_unit; try done;
     by apply Ascii.eqb_neq).
  reflexivity.
Qed.

Lemma strtr_copies_colon_free_prefix_witness :
  contains_unit ":" "Hello " = false /\
  _strtr ("Hello " +:+ ":name!") (Some [("name", "John")]) =
  "Hello " +:+ _strtr ":name!" (Some [("name", "John")]).
Proof.
  split; [reflexivity |].
  exact (strtr_copies_colon_free_prefix "Hello " ":name!"
           (Some [("name", "John")]) eq_refl).
Defined.

(** A string in which no token of [params] is written at any position
    comes back unchanged, colons included. *)
Theorem strtr_without_tokens (str : string) (params : params_t) :
  (forall i, first_token (drop_units i str) (params_entries params) = None) ->
  _strtr str params = str.
Proof.
  induction str as [|c str IH]; intros Hnone.
  - by rewrite strtr_scan; simp substitute_scan.
  - rewrite strtr_step_unit by exact (Hnone 0).
    rewrite IH; [reflexivity |]. intros i. exact (Hnone (S i)).
Qed.

Lemma strtr_without_tokens_witness :
  (forall i,
     first_token (drop_units i "a:b")
       (params_entries (Some [("name", "John")])) = None) /\
  _strtr "a:b" (Some [("name", "John")]) = "a:b".
Proof.
  assert (forall i,
            first_token (drop_units i "a:b")
              (params_entries (Some [("name", "John")])) = None) as Hnone.
  { intros i. do 4 (destruct i as [|i]; [reflexivity |]). reflexivity. }
  split; [exact Hnone |].
  exact (strtr_without_tokens "a:b" (Some [("name", "John")]) Hnone).
Defined.

(** Where the token of the entry enumerated first is written, that entry
    is the one replaced, whatever the later entries are; the scan resumes
    after the token, so the inserted value is never scanned itself. *)
Theorem strtr_first_entry_wins (kv : string * string)
  (more : list (string * string)) (rest : string) :
  _strtr (token kv +:+ rest) (Some (kv :: more)) =
  snd kv +:+ _strtr rest (Some (kv :: more)).
Proof.
  change (token kv +:+ rest) with (String ":" (fst kv +:+ rest)).
  rewrite (strtr_step_token ":" (fst kv +:+ rest) (Some (kv :: more)) kv).
  - by rewrite drop_units_append.
  - unfold first_token. cbn [params_entries List.find]. unfold token at 1.
    change (":" +:+ fst kv) with (String ":" (fst kv)).
    rewrite prefix_cons.
    destruct (ascii_dec ":" ":") as [_|Hne]; [|done].
    by rewrite prefix_append.
Qed.

(** ** File names: [split('.')], the scan filter and the language *)

Lemma split_cons_sep sep (s : string) :
  JS.split sep (String sep s) = "" :: JS.split sep s.
Proof. simpl. by rewrite Ascii.eqb_refl. Qed.

Lemma split_nonempty sep (s : string) : JS.split sep s <> [].
Proof.
  destruct s as [|c s]; simpl; [done |].
  destruct (Ascii.eqb c sep); [done |].
  by destruct (JS.split sep s).
Qed.

Lemma split_cons_other sep c (s : string) :
  c <> sep ->
  exists seg segs,
    JS.split sep s = seg :: segs /\
    JS.split sep (String c s) = String c seg :: segs.
Proof.
  intros Hc. simpl. apply Ascii.eqb_neq in Hc. rewrite Hc.
  pose proof (split_nonempty sep s) as Hne.
  destruct (JS.split sep s) as [|seg segs]; [done | eauto].
Qed.

Lemma split_without_sep sep (s : string) :
  contains_unit sep s = false -> JS.split sep s = [s].
Proof.
  induction s as [|c s IH]; intros Hfree; [reflexivity |].
  simpl in *. apply orb_false_iff in Hfree as [Hc Hfree].
  by rewrite Hc, IH.
Qed.

Lemma split_append_sep sep (a b : string) :
  contains_unit sep a = false ->
  JS.split sep (a +:+ String sep b) = a :: JS.split sep b.
Proof.
  induction a as [|c a IH]; intros Hfree; [apply split_cons_sep |].
  simpl in Hfree. apply orb_false_iff in Hfree as [Hc Hfree].
  rewrite append_cons. simpl. by rewrite Hc, IH.
Qed.

(** What [split] gives back, read from left to right: the first segment
    has no separator in it, and the string is that segment followed,
    when there are more segments, by a separator and the rest. *)
Lemma split_head_inv sep (s : string) seg segs :
  JS.split sep s = seg :: segs ->
  contains_unit sep seg = false /\
  match segs with
  | [] => s = seg
  | _ :: _ =>
      exists s', s = seg +:+ String sep s' /\ JS.split sep s' = segs
  end.
Proof.
  revert seg segs. induction s as [|c s IH]; intros seg segs Hs.
  - simpl in Hs. by injection Hs as <- <-.
  - destruct (Ascii.eqb_spec c sep) as [->|Hc].
    + rewrite split_cons_sep in Hs. injection Hs as <- <-.
      split; [reflexivity |].
      pose proof (split_nonempty sep s) as Hne.
      destruct (JS.split sep s) as [|seg' segs'] eqn:Hs'; [done |].
      exists s. by rewrite Hs'.
    + destruct (split_cons_other sep c s Hc) as (seg0 & segs0 & Hs0 & Hcs).
      rewrite Hcs in Hs. injection Hs as <- <-.
      destruct (IH seg0 segs0 Hs0) as [Hfree Hrest].
      split.
      * simpl. apply Ascii.eqb_neq in Hc. by rewrite Hc, Hfree.
      * destruct segs0 as [|seg1 segs1]; [by subst |].
        destruct Hrest as (s' & -> & Hs'). exists s'. by rewrite append_cons.
Qed.

(** The scan filter accepts exactly the names [a.ll.e] with no further
    dot in [a], [ll] or [e] and a two-unit [ll]; for such a name the
    language under which the file is loaded is [ll]. *)
Theorem eligible_iff_format (item : string) :
  eligible item = true <->
  exists a ll e,
    item = a +:+ String "." (ll +:+ String "." e) /\
    contains_unit "." a = false /\
    contains_unit "." ll = false /\
    contains_unit "." e = false /\
    String.length ll = 2 /\
    language_of item = ll.
Proof.
  rewrite eligible_shape. unfold language_of. split.
  - intros [Hlen Hmid].
    destruct (JS.split "." item) as [|a [|ll [|e [|x segs]]]] eqn:Hs;
      try done.
    destruct (split_head_inv _ _ _ _ Hs) as [Ha (s1 & -> & Hs1)].
    destruct (split_head_inv _ _ _ _ Hs1) as [Hll (s2 & -> & Hs2)].
    destruct (split_head_inv _ _ _ _ Hs2) as [He ->].
    exists a, ll, e. simpl in Hmid. done.
  - intros (a & ll & e & -> & Ha & Hll & He & Hlen & _).
    rewrite split_append_sep, split_append_sep, split_without_sep by done.
    done.
Qed.

(** ** More on file loading *)





(** *** Loading a file twice *)

Section Twice.

Context {DB : Type} (core : Core DB).

Lemma process_msg_settled L (tbl : table) kv :
  settled core L tbl kv -> process_msg core L tbl kv = tbl.
Proof.
  intros [Ht|Hsame]; unfold process_msg.
  - by rewrite Ht.
  - destruct (read_truthy _); [reflexivity | by apply assign_same].
Qed.

Lemma process_file_settled L locale (tbl : table) :
  Forall (settled core L tbl) locale ->
  fold_left (process_msg core L) locale tbl = tbl.
Proof.
  induction 1 as [|kv locale Hkv _ IH]; [reflexivity |].
  simpl. by rewrite process_msg_settled.
Qed.

(** A key that reads truthy reads the same after a turn of the loop. *)
Lemma process_msg_read_truthy L (tbl : table) kv k :
  read_truthy (read_msg core tbl L k) = true ->
  read_msg core (process_msg core L tbl kv) L k = read_msg core tbl L k.
Proof.
  intros Ht. destruct (decide (fst kv = k)) as [<-|Hne].
  - unfold process_msg. by rewrite Ht.
  - by apply process_msg_read_other.
Qed.

Lemma process_file_read_truthy L locale (tbl : table) k :
  read_truthy (read_msg core tbl L k) = true ->
  read_truthy (read_msg core (fold_left (process_msg core L) locale tbl) L k)
  = true.
Proof.
  revert tbl. induction locale as [|kv locale IH]; intros tbl Ht; [done |].
  simpl. apply IH. by rewrite process_msg_read_truthy.
Qed.

(** Once a key reads truthy or holds the empty string, it keeps doing
    so for the rest of the loop. *)
Lemma process_file_keeps_written L locale (tbl : table) k :
  writable L tbl ->
  read_truthy (read_msg core tbl L k) = true \/ entry L k tbl = Some "" ->
  read_truthy (read_msg core (fold_left (process_msg core L) locale tbl) L k)
    = true \/
  entry L k (fold_left (process_msg core L) locale tbl) = Some "".
Proof.
  revert tbl. induction locale as [|kv locale IH]; intros tbl Hw Hq; [done |].
  simpl. apply IH; [by apply process_msg_writable |].
  destruct Hq as [Ht|Hblank].
  - left. by rewrite process_msg_read_truthy.
  - destruct (decide (fst kv = k)) as [<-|Hne].
    + unfold process_msg. rewrite (read_msg_entry _ _ _ _ _ Hblank). simpl.
      assert (entry L (fst kv) (assign L (fst kv) (snd kv) tbl) =
              Some (snd kv)) as Hset by by apply entry_assign_eq.
      destruct (snd kv) as [|c v] eqn:Hv; [by right |].
      left. by rewrite (read_msg_entry _ _ _ _ _ Hset).
    + right. by rewrite process_msg_absent_key.
Qed.

Lemma process_file_settles L locale (tbl : table) :
  writable L tbl ->
  Forall (settled core L (fold_left (process_msg core L) locale tbl)) locale.
Proof.
  revert tbl. induction locale as [|kv locale IH]; intros tbl Hw; [done |].
  simpl. apply Forall_cons.
  split; [|by apply IH, process_msg_writable].
  assert (read_truthy
            (read_msg core (process_msg core L tbl kv) L (fst kv)) = true \/
          entry L (fst kv) (process_msg core L tbl kv) = Some (snd kv))
    as Hhead.
  { unfold process_msg.
    destruct (read_truthy (read_msg core tbl L (fst kv))) eqn:Ht;
      [by left |].
    right. by apply entry_assign_eq. }
  unfold settled.
  destruct Hhead as [Ht|Hset]; [left; by apply process_file_read_truthy |].
  destruct (snd kv) as [|c v] eqn:Hv.
  - apply process_file_keeps_written; [by apply process_msg_writable |].
    by right.
  - left. apply process_file_read_truthy.
    by rewrite (read_msg_entry _ _ _ _ _ Hset).
Qed.

End Twice.

(** Loading the same file a second time changes nothing in the table. *)
Theorem addFromFile_twice {DB} (core : Core DB) (st : Locale DB)
  (filename : string) :
  snd (addFromFile core st filename) = None ->
  let st1 := fst (addFromFile core st filename) in
  snd (addFromFile core st1 filename) = None /\
  _locales (fst (addFromFile core st1 filename)) = _locales st1.
Proof.
  intros Hok.
  destruct (addFromFile_success_inv core st filename Hok) as [locale Hreq].
  cbv zeta.
  rewrite (addFromFile_ok core _ filename locale Hreq).
  rewrite (addFromFile_ok core st filename locale Hreq). simpl.
  split; [reflexivity |].
  set (L := language_of filename).
  assert (writable L (ensure_language L (_locales st))) as Hw
    by apply ensure_writable.
  rewrite ensure_language_writable.
  - apply process_file_settled. by apply process_file_settles.
  - clear Hreq. revert Hw. generalize (ensure_language L (_locales st)).
    induction locale as [|kv locale IH]; intros tbl Hw; [done |].
    simpl. by apply IH, process_msg_writable.
Qed.

Lemma addFromFile_twice_witness :
  let st1 :=
    fst (addFromFile Sample.core (new_Locale (Sample.online []))
           "tmp/blank.fr.json") in
  snd (addFromFile Sample.core (new_Locale (Sample.online []))
         "tmp/blank.fr.json") = None /\
  _locales (fst (addFromFile Sample.core st1 "tmp/blank.fr.json")) =
  _locales st1.
Proof.
  cbv zeta. split; [reflexivity |].
  exact (proj2 (addFromFile_twice Sample.core
           (new_Locale (Sample.online [])) "tmp/blank.fr.json" eq_refl)).
Defined.

(** *** Failure, and what loads leave alone *)



Section MoreFileLoading.

Context {DB : Type} (core : Core DB).

Lemma addFromFile_lookup_other (st : Locale DB) filename L :
  L <> language_of filename ->
  _locales (fst (addFromFile core st filename)) !! L = _locales st !! L.
Proof.
  intros Hne. unfold addFromFile, _processFile.
  destruct (fs_require core filename) as [err|locale]; [done |].
  simpl. rewrite process_file_other by done.
  by rewrite lookup_ensure_language, decide_False.
Qed.

Lemma addFromFile_keeps_written (st : Locale DB) filename L k v :
  entry L k (_locales st) = Some v -> v <> "" ->
  entry L k (_locales (fst (addFromFile core st filename))) = Some v.
Proof.
  intros Hentry Hv.
  destruct (decide (L = language_of filename)) as [->|Hne].
  - unfold addFromFile, _processFile.
    destruct (fs_require core filename) as [err|locale]; [done |].
    simpl. rewrite process_file_truthy; rewrite entry_ensure_language;
      [done |].
    apply entry_truthy_true_iff. eauto.
  - unfold entry. by rewrite addFromFile_lookup_other.
Qed.

Lemma load_queue_lookup_other (queue : list string) (st : Locale DB) L :
  L ∉ map language_of queue ->
  _locales (fst (series (map (processFile core) queue) st)) !! L =
  _locales st !! L.
Proof.
  revert st. induction queue as [|f queue IH]; intros st Hout; [done |].
  simpl in Hout. apply not_elem_of_cons in Hout as [Hne Hout].
  cbn [map series].
  change (processFile core f st) with (addFromFile core st f).
  pose proof (addFromFile_lookup_other st f L Hne) as Hf.
  destruct (addFromFile core st f) as [st1 [err|]]; [done |].
  rewrite IH by done. exact Hf.
Qed.

Lemma load_queue_keeps_written (queue : list string) (st : Locale DB)
  L k v :
  entry L k (_locales st) = Some v -> v <> "" ->
  entry L k (_locales (fst (series (map (processFile core) queue) st))) =
  Some v.
Proof.
  revert st. induction queue as [|f queue IH]; intros st Hentry Hv; [done |].
  cbn [map series].
  change (processFile core f st) with (addFromFile core st f).
  pose proof (addFromFile_keeps_written st f L k v Hentry Hv) as Hf.
  destruct (addFromFile core st f) as [st1 [err|]]; [done |].
  by apply IH.
Qed.



End MoreFileLoading.





(** Whatever its outcome, a directory scan changes no entry that holds a
    non-empty value, and touches no language other than those of the
    eligible files. *)
Theorem addFromDir_leaves_alone {DB} (core : Core DB) (st : Locale DB)
  (dir : string) :
  (forall L k v,
     entry L k (_locales st) = Some v -> v <> "" ->
     entry L k (_locales (fst (addFromDir core st dir))) = Some v) /\
  (forall files L,
     fs_glob core dir = inr files ->
     L ∉ map language_of (List.filter eligible files) ->
     _locales (fst (addFromDir core st dir)) !! L = _locales st !! L) /\
  (forall reason,
     fs_glob core dir = inl reason ->
     addFromDir core st dir =
     (record_event (EvGlob dir) st, Some (LoadError reason))).
Proof.
  unfold addFromDir. split; [|split].
  - intros L k v Hentry Hv.
    destruct (fs_glob core dir) as [reason|files]; [done |].
    by apply load_queue_keeps_written.
  - intros files L -> Hout. by rewrite load_queue_lookup_other.
  - by intros reason ->.
Qed.

Lemma addFromDir_leaves_alone_witness :
  let st1 :=
    fst (translate Sample.core (new_Locale (Sample.online []))
           "fr" "Hello world" "Salut") in
  entry "fr" "Hello world" (_locales st1) = Some "Salut" /\
  "Salut" <> "" /\
  entry "fr" "Hello world"
    (_locales (fst (addFromDir Sample.core st1 "tmp"))) = Some "Salut".
Proof.
  cbv zeta.
  assert ("Salut" <> "") as Hne by discriminate.
  split; [reflexivity |]. split; [exact Hne |].
  exact (proj1 (addFromDir_leaves_alone Sample.core
           (fst (translate Sample.core (new_Locale (Sample.online []))
                   "fr" "Hello world" "Salut")) "tmp")
           "fr" "Hello world" "Salut" eq_refl Hne).
Defined.

(** ** More on the database load and on [translate] *)





Section MoreDatabase.

Context {DB : Type} (core : Core DB).

Lemma addFromDir_journal (st : Locale DB) dir :
  exists attempted,
    journal (fst (addFromDir core st dir)) =
    journal st ++ EvGlob dir :: map EvRequire attempted.
Proof.
  unfold addFromDir. destruct (fs_glob core dir) as [reason|files].
  - by exists [].
  - destruct (load_queue_journal core (List.filter eligible files)
                (record_event (EvGlob dir) st))
      as (attempted & rest & _ & Hj & _).
    exists attempted. rewrite Hj. simpl. by rewrite <- app_assoc.
Qed.

Lemma addFromDatabase_journal (st : Locale DB) :
  journal (fst (_addFromDatabase core st)) = journal st ++ [EvFind] /\
  database (fst (_addFromDatabase core st)) = database st.
Proof.
  unfold _addFromDatabase. simpl.
  by destruct (db_find core (database st)).
Qed.



End MoreDatabase.

(** The loaders only read: [initialize] (a directory scan followed by
    the bulk load) hands the database back as it received it and issues
    no [findOne] and no [save]; what it does issue is one [glob] and file
    reads, when a directory is given, and then at most one [find]. *)
Theorem initialize_only_reads {DB} (core : Core DB) (st : Locale DB)
  (dir : option string) :
  database (fst (initialize core st dir)) = database st /\
  exists requests,
    journal (fst (initialize core st dir)) = journal st ++ requests /\
    (forall ev, In ev requests ->
       ev = EvFind \/ (exists d, ev = EvGlob d) \/
       (exists f, ev = EvRequire f)).
Proof.
  assert (forall st0 : Locale DB,
    database (fst (_addFromDatabase core st0)) = database st0 /\
    exists requests,
      journal (fst (_addFromDatabase core st0)) = journal st0 ++ requests /\
      forall ev, In ev requests ->
        ev = EvFind \/ (exists d, ev = EvGlob d) \/
        (exists f, ev = EvRequire f)) as Hdb.
  { intros st0. destruct (addFromDatabase_journal core st0) as [Hj Hd].
    split; [exact Hd |]. exists [EvFind]. split; [exact Hj |].
    intros ev [<-|[]]. by left. }
  destruct dir as [d|]; [destruct (JS.truthy d) eqn:Hd |].
  - rewrite (initialize_with_dir core st d Hd).
    pose proof (addFromDir_database core st d) as Hdir.
    destruct (addFromDir_journal core st d) as [attempted Hj].
    assert (forall ev, In ev (EvGlob d :: map EvRequire attempted) ->
              ev = EvFind \/ (exists d, ev = EvGlob d) \/
              (exists f, ev = EvRequire f)) as Hscan.
    { intros ev [<-|Hin]; [right; left; eauto |].
      apply in_map_iff in Hin as (f & <- & _). right; right; eauto. }
    destruct (addFromDir core st d) as [st1 [err|]]; simpl in *.
    + split; [exact Hdir |]. eexists. split; [exact Hj | exact Hscan].
    + destruct (Hdb st1) as (Hd1 & requests & Hj1 & Hreq).
      split; [by rewrite Hd1 |].
      exists ((EvGlob d :: map EvRequire attempted) ++ requests).
      split; [by rewrite Hj1, Hj, <- app_assoc |].
      intros ev Hin. apply in_app_iff in Hin as [Hin|Hin]; auto.
  - destruct d; [|done]. rewrite initialize_without_dir by auto. apply Hdb.
  - rewrite initialize_without_dir by auto. apply Hdb.
Qed.



Section MoreTranslate.

Context {DB : Type} (core : Core DB).





End MoreTranslate.









(** ** When the sequences succeed *)




(** ** Files in sequence, and plain lookups *)





(** ** The further properties on the fixtures *)

Lemma eligible_iff_format_witness :
  eligible ("tmp/test1" +:+ String "." ("fr" +:+ String "." "json")) = true.
Proof.
  apply (proj2 (eligible_iff_format
                  ("tmp/test1" +:+ String "." ("fr" +:+ String "." "json")))).
  exists "tmp/test1", "fr", "json". repeat split; reflexivity.
Defined.

Lemma initialize_only_reads_witness :
  database
    (fst (initialize Sample.core (new_Locale (Sample.online []))
            (Some "tmp"))) =
  database (new_Locale (Sample.online [])).
Proof.
  exact (proj1 (initialize_only_reads Sample.core
           (new_Locale (Sample.online [])) (Some "tmp"))).
Defined.


